(** * CrossThreadQueue: a bounded FIFO container guarded by one mutex

    Shallow embedding of [Jules::utils::CrossThreadQueue<T>]
    (cross_thread_queue.hpp).  Every member function takes the mutex on
    entry and holds it until it returns, so each call is one atomic
    transition of the pair (queue_, max_count_); the embedding is the
    sequential semantics of those transitions. *)

From stdpp Require Import base numbers list.
From Stdlib Require Import NArith Lia.
From Stdlib Require Strings.String.

Local Open Scope N_scope.

(** ** Machine integers *)

(** [std::size_t] on the 64-bit targets the header is built for. *)
Abbreviation size_t := N (only parsing).
Definition SIZE_WIDTH : N := 64.
Definition SIZE_MAX : size_t := 2 ^ SIZE_WIDTH - 1.

(** Unsigned addition wraps around. *)
Definition size_add (a b : size_t) : size_t := (a + b) mod 2 ^ SIZE_WIDTH.

(** ** Outcomes of a call *)

Inductive failure :=
  | UndefinedBehaviour   (* precondition of a container primitive violated *)
  | OutOfRange           (* std::out_of_range thrown by at() *)
  | OutOfFuel.           (* the loop was still running when the fuel ran out *)

Inductive outcome (A : Type) :=
  | Done (a : A)
  | Fail (f : failure).
Arguments Done {A} a.
Arguments Fail {A} f.

(** Sequencing stops at the first failure; [x ← m; k] is stdpp's notation
    for [mbind]. *)
Global Instance outcome_bind : MBind outcome := λ A B k m,
  match m with
  | Done a => k a
  | Fail f => Fail f
  end.

Global Instance outcome_ret : MRet outcome := λ A a, Done a.

Definition is_Done {A} (m : outcome A) : bool :=
  match m with Done _ => true | Fail _ => false end.

(** ** The container primitives used by the header *)

Section primitives.
Context {T : Type}.

(** [std::deque<T>] and [std::vector<T>] are sequences, front first.
    [size()] is exact: a container never holds more than [max_size()]
    elements, which is below [2 ^ SIZE_WIDTH]. *)
Definition size (q : list T) : size_t := N.of_nat (length q).

Definition empty (q : list T) : bool :=
  match q with [] => true | _ :: _ => false end.

Definition push_back (t : T) (q : list T) : list T := q ++ [t].

(** [front()] and [pop_front()] on an empty deque are undefined. *)
Definition front (q : list T) : outcome T :=
  match q with
  | [] => Fail UndefinedBehaviour
  | x :: _ => Done x
  end.

Definition pop_front (q : list T) : outcome (list T) :=
  match q with
  | [] => Fail UndefinedBehaviour
  | _ :: r => Done r
  end.

(** [at(k)] is bounds-checked and throws. *)
Definition at_ (k : nat) (q : list T) : outcome T :=
  match q !! k with
  | Some x => Done x
  | None => Fail OutOfRange
  end.

(** [erase(begin() + k)] needs a dereferenceable position. *)
Definition erase (k : nat) (q : list T) : outcome (list T) :=
  if decide (k < length q)%nat then Done (delete k q)
  else Fail UndefinedBehaviour.

(** [ts[i] = x] on a vector: [operator[]] is unchecked. *)
Definition vec_set (i : nat) (x : T) (ts : list T) : outcome (list T) :=
  if decide (i < length ts)%nat then Done (<[i:=x]> ts)
  else Fail UndefinedBehaviour.
End primitives.

(** ** The class *)

Section CrossThreadQueue.
Context {T : Type}.
(** [T()]: the value the elements of [std::vector<T> ts(sz)] start with. *)
Variable T_default : T.
(** [operator==] on [T], whatever the instantiation makes of it. *)
Variable T_eq : T → T → bool.

(** The data members; [mutex_] is what makes each call atomic. *)
Record CrossThreadQueue := mkQueue {
  queue_ : list T;
  max_count_ : size_t
}.

(** [explicit CrossThreadQueue() = default]. *)
Definition construct : CrossThreadQueue :=
  {| queue_ := []; max_count_ := SIZE_MAX |}.

Definition with_queue (s : CrossThreadQueue) (q : list T) : CrossThreadQueue :=
  {| queue_ := q; max_count_ := max_count_ s |}.

(** [while (queue_.size() >= max_count_) queue_.pop_front();]
    One unit of fuel pays for one evaluation of the loop condition. *)
Fixpoint SetMaxCount_loop (fuel : nat) (s : CrossThreadQueue)
    : outcome CrossThreadQueue :=
  match fuel with
  | O => Fail OutOfFuel
  | S fuel' =>
      if max_count_ s <=? size (queue_ s) then
        q ← pop_front (queue_ s);
        SetMaxCount_loop fuel' (with_queue s q)
      else Done s
  end.

Definition SetMaxCount (fuel : nat) (ic : size_t) (s : CrossThreadQueue)
    : outcome CrossThreadQueue :=
  SetMaxCount_loop fuel {| queue_ := queue_ s; max_count_ := ic |}.

Definition GetMaxCount (s : CrossThreadQueue) : size_t := max_count_ s.

Definition Size (s : CrossThreadQueue) : size_t := size (queue_ s).

Definition Full (s : CrossThreadQueue) : bool :=
  size (queue_ s) =? max_count_ s.

Definition Empty (s : CrossThreadQueue) : bool := empty (queue_ s).

Definition Try_Push (t : T) (s : CrossThreadQueue) : bool * CrossThreadQueue :=
  if size (queue_ s) <? max_count_ s then
    (true, with_queue s (push_back t (queue_ s)))
  else (false, s).

(** [for (auto &t : ts) queue_.push_back(t);] *)
Definition push_back_all (ts : list T) (q : list T) : list T :=
  fold_left (λ q t, push_back t q) ts q.

Definition Try_Push_batch (ts : list T) (s : CrossThreadQueue)
    : bool * CrossThreadQueue :=
  if max_count_ s <? size_add (size ts) (size (queue_ s)) then (false, s)
  else (false, with_queue s (push_back_all ts (queue_ s))).

Definition Push (t : T) (s : CrossThreadQueue) : outcome CrossThreadQueue :=
  let q := push_back t (queue_ s) in
  if max_count_ s <? size q then
    q' ← pop_front q; Done (with_queue s q')
  else Done (with_queue s q).

Fixpoint Push_batch_loop (ts : list T) (s : CrossThreadQueue)
    : outcome CrossThreadQueue :=
  match ts with
  | [] => Done s
  | t :: ts' =>
      let q := push_back t (queue_ s) in
      if max_count_ s <=? size q then
        q' ← pop_front q; Push_batch_loop ts' (with_queue s q')
      else Push_batch_loop ts' (with_queue s q)
  end.

Definition Push_batch (ts : list T) (s : CrossThreadQueue)
    : outcome CrossThreadQueue :=
  Push_batch_loop ts s.

(** [while (queue_.empty()) sleep_for(10ms);] runs with the mutex held,
    so nothing changes between two evaluations of the condition. *)
Fixpoint Pop_Must_wait (fuel : nat) (s : CrossThreadQueue) : outcome unit :=
  match fuel with
  | O => Fail OutOfFuel
  | S fuel' => if empty (queue_ s) then Pop_Must_wait fuel' s else Done ()
  end.

(** The second component is the value stored through [t]. *)
Definition Pop_Must (fuel : nat) (s : CrossThreadQueue)
    : outcome (bool * T * CrossThreadQueue) :=
  _ ← Pop_Must_wait fuel s;
  x ← front (queue_ s);
  q' ← pop_front (queue_ s);
  Done (true, x, with_queue s q').

(** [has_t] says whether [t] is non-null; the second component is the
    value stored through it, if any. *)
Definition Pop (has_t : bool) (s : CrossThreadQueue)
    : outcome (bool * option T * CrossThreadQueue) :=
  if empty (queue_ s) then Done (false, None, s)
  else
    x ← front (queue_ s);
    q' ← pop_front (queue_ s);
    Done (true, if has_t then Some x else None, with_queue s q').

(** [for (size_t i = 0; i < sz; i++) { ts[i] = front(); pop_front(); }] *)
Fixpoint Pop_n_loop (fuel : nat) (i sz : nat) (ts : list T) (q : list T)
    : outcome (list T * list T) :=
  match fuel with
  | O => Fail OutOfFuel
  | S fuel' =>
      if decide (i < sz)%nat then
        x ← front q;
        ts' ← vec_set i x ts;
        q' ← pop_front q;
        Pop_n_loop fuel' (S i) sz ts' q'
      else Done (ts, q)
  end.

Definition Pop_n (num : size_t) (s : CrossThreadQueue)
    : outcome (list T * CrossThreadQueue) :=
  let sz := N.to_nat (N.min num (size (queue_ s))) in
  let ts := replicate sz T_default in
  r ← Pop_n_loop (S sz) 0 sz ts (queue_ s);
  Done (r.1, with_queue s r.2).

Definition Clear (s : CrossThreadQueue) : CrossThreadQueue :=
  with_queue s [].

(** [for (k = 0; k < queue_.size(); k++) if (t == queue_.at(k)) ...] *)
Fixpoint Erase_loop (fuel : nat) (t : T) (k : nat) (q : list T)
    : outcome (bool * list T) :=
  match fuel with
  | O => Fail OutOfFuel
  | S fuel' =>
      if decide (k < length q)%nat then
        x ← at_ k q;
        if T_eq t x then
          q' ← erase k q; Done (true, q')
        else Erase_loop fuel' t (S k) q
      else Done (false, q)
  end.

Definition Erase (t : T) (s : CrossThreadQueue)
    : outcome (bool * CrossThreadQueue) :=
  r ← Erase_loop (S (length (queue_ s))) t 0 (queue_ s);
  Done (r.1, with_queue s r.2).

(** No item of the list compares equal to [t]. *)
Definition no_match (t : T) (q : list T) : Prop :=
  Forall (λ y, T_eq t y = false) q.

(** ** Sequences of calls *)

(** One constructor per public member function ([Sleep] is static and
    touches no member). *)
Inductive call :=
  | CSetMaxCount (ic : size_t)
  | CGetMaxCount
  | CSize
  | CFull
  | CEmpty
  | CTry_Push (t : T)
  | CTry_Push_batch (ts : list T)
  | CPush (t : T)
  | CPush_batch (ts : list T)
  | CPop (has_t : bool)
  | CPop_n (num : size_t)
  | CPop_Must
  | CClear
  | CErase (t : T).

(** What the caller gets back. *)
Inductive reply :=
  | RVoid
  | RSize (n : size_t)
  | RBool (b : bool)
  | RItem (b : bool) (x : option T)
  | RItems (ts : list T).

Definition exec (fuel : nat) (c : call) (s : CrossThreadQueue)
    : outcome (reply * CrossThreadQueue) :=
  match c with
  | CSetMaxCount ic => s' ← SetMaxCount fuel ic s; Done (RVoid, s')
  | CGetMaxCount => Done (RSize (GetMaxCount s), s)
  | CSize => Done (RSize (Size s), s)
  | CFull => Done (RBool (Full s), s)
  | CEmpty => Done (RBool (Empty s), s)
  | CTry_Push t => let r := Try_Push t s in Done (RBool r.1, r.2)
  | CTry_Push_batch ts => let r := Try_Push_batch ts s in Done (RBool r.1, r.2)
  | CPush t => s' ← Push t s; Done (RVoid, s')
  | CPush_batch ts => s' ← Push_batch ts s; Done (RVoid, s')
  | CPop has_t => r ← Pop has_t s; Done (RItem r.1.1 r.1.2, r.2)
  | CPop_n num => r ← Pop_n num s; Done (RItems r.1, r.2)
  | CPop_Must => r ← Pop_Must fuel s; Done (RItem r.1.1 (Some r.1.2), r.2)
  | CClear => Done (RVoid, Clear s)
  | CErase t => r ← Erase t s; Done (RBool r.1, r.2)
  end.

Fixpoint run (fuel : nat) (cs : list call) (s : CrossThreadQueue)
    : outcome (list reply * CrossThreadQueue) :=
  match cs with
  | [] => Done ([], s)
  | c :: cs' =>
      r ← exec fuel c s;
      rest ← run fuel cs' r.2;
      Done (r.1 :: rest.1, rest.2)
  end.

Definition is_SetMaxCount (c : call) : bool :=
  match c with CSetMaxCount _ => true | _ => false end.

(** The items a call hands to the queue, in order. *)
Definition offered (c : call) : list T :=
  match c with
  | CTry_Push t | CPush t => [t]
  | CTry_Push_batch ts | CPush_batch ts => ts
  | _ => []
  end.

(** The items a call hands back to its caller, in order. *)
Definition delivered (r : reply) : list T :=
  match r with
  | RItem _ (Some x) => [x]
  | RItems ts => ts
  | _ => []
  end.

(** A vector and a deque that exist side by side hold fewer than
    [2 ^ SIZE_WIDTH] elements together (each is bounded by its
    [max_size()]), so the sum in the batch [Try_Push] does not wrap. *)
Definition coexist (c : call) (s : CrossThreadQueue) : Prop :=
  match c with
  | CTry_Push_batch ts => size ts + size (queue_ s) ≤ SIZE_MAX
  | _ => True
  end.

(** The states a queue can be in: freshly constructed, or after a call
    on such a state has returned. *)
Inductive reachable : CrossThreadQueue → Prop :=
  | reachable_construct : reachable construct
  | reachable_call fuel c s r s' :
      reachable s → coexist c s → exec fuel c s = Done (r, s') →
      reachable s'.

(** The behaviour §4.1 of the specification words for the batch [Push]:
    insert one item, then drop the oldest if the size is at or above the
    bound. *)
Definition Push_batch_spec (max : size_t) (ts : list T) (q : list T) : list T :=
  fold_left (λ q t,
    let q1 := q ++ [t] in
    if decide (max ≤ size q1) then tail q1 else q1) ts q.

End CrossThreadQueue.

Arguments CrossThreadQueue T : clear implicits.
Arguments call T : clear implicits.
Arguments reply T : clear implicits.

(** ** The demonstration program: filling the queue of vacant resources

    The first loop of [main] in example.cpp runs before any worker thread
    is started.  Objects made by [std::make_shared] live in a store, a
    [std::shared_ptr<Dummy>] is the index of its object there, and the
    pool and the queue hold copies of the same pointers. *)

Section example.
(** The types [float] and [double], and their zeros. *)
Context {float double : Type}.
Variable float_0 : float.
Variable double_0 : double.











End example.

(** * Properties *)

(** ** Arithmetic on [size_t] *)

Lemma size_add_no_wrap (a b : size_t) :
  a + b ≤ SIZE_MAX → size_add a b = a + b.
Proof.
  unfold size_add, SIZE_MAX, SIZE_WIDTH. intros H.
  apply N.mod_small. lia.
Qed.

Lemma size_app {T} (q ts : list T) : size (q ++ ts) = size q + size ts.
Proof. unfold size. rewrite length_app. lia. Qed.

Lemma size_cons {T} (x : T) (q : list T) : size (x :: q) = size q + 1.
Proof. unfold size. simpl. lia. Qed.

Lemma size_nil {T} : size (@nil T) = 0.
Proof. reflexivity. Qed.

Lemma push_back_all_app {T} (ts q : list T) : push_back_all ts q = q ++ ts.
Proof.
  unfold push_back_all. revert q.
  induction ts as [|t ts IH]; intros q; simpl.
  - by rewrite app_nil_r.
  - rewrite IH. unfold push_back. by rewrite <- app_assoc.
Qed.

Section SetMaxCount_facts.
Context {T : Type}.
Implicit Types (s : CrossThreadQueue T) (q : list T).

(** With a positive bound the loop stops after at most [length q]
    evictions, keeping the newest [ic - 1] items when it evicts at all. *)
Lemma SetMaxCount_loop_positive q ic fuel :
  0 < ic → (length q < fuel)%nat →
  SetMaxCount_loop fuel (mkQueue q ic) =
    Done (mkQueue (drop (length q - (N.to_nat ic - 1)) q) ic).
Proof.
  intros Hic. revert fuel.
  induction q as [|x q IH]; intros fuel Hfuel;
    (destruct fuel as [|fuel]; [lia|]); simpl.
  - destruct (N.leb_spec ic (size (@nil T))) as [Hle|Hlt].
    + rewrite size_nil in Hle. lia.
    + done.
  - destruct (N.leb_spec ic (size (x :: q))) as [Hle|Hlt].
    + unfold with_queue. simpl. rewrite IH by (simpl in Hfuel; lia).
      rewrite size_cons in Hle. unfold size in Hle.
      replace (S (length q) - (N.to_nat ic - 1))%nat
        with (S (length q - (N.to_nat ic - 1)))%nat by lia.
      done.
    + rewrite size_cons in Hlt. unfold size in Hlt.
      replace (S (length q) - (N.to_nat ic - 1))%nat with 0%nat by lia.
      done.
Qed.

(** With bound 0 the condition [size() >= 0] never fails: the loop
    empties the deque and then calls [pop_front] on it. *)
Lemma SetMaxCount_loop_zero q fuel :
  (length q < fuel)%nat →
  SetMaxCount_loop fuel (mkQueue q 0) = Fail UndefinedBehaviour.
Proof.
  revert q. induction fuel as [|fuel IH]; intros q Hfuel; [lia|].
  destruct q as [|x q]; [done|].
  simpl in *. unfold with_queue; simpl. apply IH. lia.
Qed.

Lemma SetMaxCount_loop_zero_short q fuel :
  (fuel ≤ length q)%nat →
  SetMaxCount_loop fuel (mkQueue q 0) = Fail OutOfFuel.
Proof.
  revert q. induction fuel as [|fuel IH]; intros q Hfuel; [done|].
  destruct q as [|x q]; simpl in *; [lia|].
  unfold with_queue; simpl. apply IH. lia.
Qed.
End SetMaxCount_facts.

(** ** Capacity control *)

Section SetMaxCount_claims.
Context {T : Type}.
Implicit Types (s : CrossThreadQueue T) (q : list T).

(** For a positive argument the call returns, with the new bound stored
    and at most [ic - 1] items left. *)
Lemma SetMaxCount_positive fuel ic s :
  0 < ic →
  SetMaxCount (S (length (queue_ s)) + fuel) ic s =
    Done (mkQueue (drop (length (queue_ s) - (N.to_nat ic - 1)) (queue_ s)) ic).
Proof.
  intros Hic. unfold SetMaxCount.
  apply SetMaxCount_loop_positive; [done | lia].
Qed.

Lemma SetMaxCount_Done_inv fuel ic s s' :
  SetMaxCount fuel ic s = Done s' →
  0 < ic ∧ max_count_ s' = ic ∧ size (queue_ s') < ic ∧
  ∃ n, queue_ s' = drop n (queue_ s).
Proof.
  unfold SetMaxCount. intros Hrun.
  destruct (N.eq_dec ic 0) as [->|Hic].
  - destruct (decide (length (queue_ s) < fuel)%nat).
    + rewrite SetMaxCount_loop_zero in Hrun by done. discriminate.
    + rewrite SetMaxCount_loop_zero_short in Hrun by lia. discriminate.
  - assert (0 < ic) as Hpos by lia. split; [done|].
    revert Hrun. generalize (queue_ s) as q. clear s.
    induction fuel as [|fuel IH]; intros q; simpl; [discriminate|].
    destruct (N.leb_spec ic (size q)) as [Hle|Hlt].
    + destruct q as [|x q]; simpl; [discriminate|]. intros Hrun.
      destruct (IH _ Hrun) as (Hmax & Hsz & [n Hn]).
      split; [done|]. split; [done|]. by exists (S n).
    + intros [= <-]. split; [done|]. split; [done|].
      exists 0%nat. by rewrite drop_0.
Qed.

(** C2: SetMaxCount(n) is claimed to leave the sequence alone whenever
    the current size is at most n.  On the code, setting the bound to
    the current size of a non-empty queue evicts its oldest item: the
    loop condition is [size() >= max_count_]. *)
Theorem SetMaxCount_evicts_at_equal_size fuel (x : T) q (m : size_t) :
  SetMaxCount (S (S (length q)) + fuel) (size (x :: q)) (mkQueue (x :: q) m) =
    Done (mkQueue q (size (x :: q))).
Proof.
  change (S (S (length q)) + fuel)%nat
    with (S (length (queue_ (mkQueue (x :: q) m))) + fuel)%nat.
  rewrite SetMaxCount_positive by (rewrite size_cons; lia).
  simpl queue_. do 2 f_equal.
  unfold size. simpl length.
  replace (S (length q) - (N.to_nat (N.of_nat (S (length q))) - 1))%nat
    with 1%nat by lia.
  simpl. by rewrite drop_0.
Qed.

(** C3: SetMaxCount(0) is claimed to return with Size() == 0.  On the
    code it returns for no amount of fuel: once the deque is empty the
    loop calls [pop_front] on it. *)
Theorem SetMaxCount_zero_never_returns fuel s :
  is_Done (SetMaxCount fuel 0 s) = false ∧
  SetMaxCount (S (length (queue_ s)) + fuel) 0 s = Fail UndefinedBehaviour.
Proof.
  unfold SetMaxCount. split.
  - destruct (decide (length (queue_ s) < fuel)%nat).
    + by rewrite SetMaxCount_loop_zero.
    + by rewrite SetMaxCount_loop_zero_short by lia.
  - apply SetMaxCount_loop_zero. lia.
Qed.
End SetMaxCount_claims.

(** ** Insertion *)

Section insertion.
Context {T : Type}.
Implicit Types (s : CrossThreadQueue T) (q ts : list T) (t : T).

Lemma Try_Push_batch_reply ts s : (Try_Push_batch ts s).1 = false.
Proof. unfold Try_Push_batch. by destruct (_ <? _). Qed.

Lemma Try_Push_batch_accept ts s :
  size ts + size (queue_ s) ≤ SIZE_MAX →
  size (queue_ s) + size ts ≤ max_count_ s →
  (Try_Push_batch ts s).2 = with_queue s (queue_ s ++ ts).
Proof.
  intros Hmem Hfit. unfold Try_Push_batch.
  rewrite size_add_no_wrap by done.
  destruct (N.ltb_spec (max_count_ s) (size ts + size (queue_ s))); [lia|].
  simpl. by rewrite push_back_all_app.
Qed.

Lemma Try_Push_batch_reject ts s :
  size ts + size (queue_ s) ≤ SIZE_MAX →
  max_count_ s < size (queue_ s) + size ts →
  (Try_Push_batch ts s).2 = s.
Proof.
  intros Hmem Hfit. unfold Try_Push_batch.
  rewrite size_add_no_wrap by done.
  destruct (N.ltb_spec (max_count_ s) (size ts + size (queue_ s))); [done|lia].
Qed.

(** C1: the batch Try_Push is claimed to return true exactly when the
    batch was inserted.  On the code an accepted batch is appended
    whole, and the call still returns false. *)
Theorem Try_Push_batch_accepted_returns_false ts s :
  size ts + size (queue_ s) ≤ SIZE_MAX →
  Size s + size ts ≤ GetMaxCount s →
  Try_Push_batch ts s = (false, with_queue s (queue_ s ++ ts)).
Proof.
  intros Hmem Hfit.
  rewrite (surjective_pairing (Try_Push_batch ts s)).
  by rewrite Try_Push_batch_reply, Try_Push_batch_accept.
Qed.

Lemma Push_Done t s :
  Push t s =
    Done (with_queue s
      (if decide (max_count_ s < size (queue_ s) + 1)
       then tail (queue_ s ++ [t]) else queue_ s ++ [t])).
Proof.
  unfold Push, push_back. rewrite size_app. change (size [t]) with 1.
  destruct (N.ltb_spec (max_count_ s) (size (queue_ s) + 1));
    destruct (decide _); try lia; [|done].
  destruct (queue_ s); done.
Qed.

(** C6: Push(t) always returns, with t inserted at the back; when the
    insertion takes the size above max_count_ exactly one item, the
    oldest, is evicted.  On a full queue that leaves the old items but
    the first followed by t, and the size at the bound. *)
Theorem Push_inserts_and_evicts_oldest t s :
  ∃ s', Push t s = Done s' ∧
    max_count_ s' = max_count_ s ∧
    (Size s + 1 ≤ max_count_ s → queue_ s' = queue_ s ++ [t]) ∧
    (max_count_ s < Size s + 1 →
       queue_ s' = tail (queue_ s ++ [t]) ∧ Size s' = Size s) ∧
    (Full s = true →
       queue_ s' = tail (queue_ s ++ [t]) ∧
       (∀ x q, queue_ s = x :: q → queue_ s' = q ++ [t]) ∧
       Size s' = max_count_ s').
Proof.
  rewrite Push_Done. eexists; split; [done|]. simpl.
  unfold Full, Size. rewrite N.eqb_eq.
  destruct (decide _) as [Hgt|Hle]; (split; [done|]).
  - assert (size (tail (queue_ s ++ [t])) = size (queue_ s)) as Hsz.
    { destruct (queue_ s); unfold size; simpl; [done|].
      rewrite length_app. simpl. lia. }
    split; [intros ?; exfalso; lia|]. split; [done|]. intros Hfull.
    split; [done|]. split; [|simpl; lia].
    intros x q ->. done.
  - split; [done|]. split; intros ?; exfalso; lia.
Qed.
End insertion.

Section batch_push.
Context {T : Type}.
Implicit Types (s : CrossThreadQueue T) (q ts : list T) (t : T).

Lemma pop_front_push_back t q : pop_front (push_back t q) = Done (tail (q ++ [t])).
Proof. unfold push_back. by destruct q. Qed.

Lemma Push_batch_loop_Done ts s :
  Push_batch_loop ts s =
    Done (with_queue s (Push_batch_spec (max_count_ s) ts (queue_ s))).
Proof.
  revert s. induction ts as [|t ts IH]; intros s; simpl.
  - by destruct s.
  - rewrite pop_front_push_back. unfold push_back.
    destruct (N.leb_spec (max_count_ s) (size (queue_ s ++ [t])));
      destruct (decide _); try (exfalso; lia); simpl; by rewrite IH.
Qed.

(** C8: Push(ts) always returns; it has inserted the items of ts one at
    a time, in order, and after each insertion that left the size at or
    above max_count_ it has evicted the one oldest item. *)
Theorem Push_batch_inserts_one_at_a_time t ts s :
  Push_batch [] s = Done s ∧
  Push_batch (t :: ts) s =
    Push_batch ts
      (with_queue s
         (if decide (max_count_ s ≤ Size s + 1)
          then tail (queue_ s ++ [t]) else queue_ s ++ [t])) ∧
  Push_batch ts s =
    Done (with_queue s (Push_batch_spec (max_count_ s) ts (queue_ s))).
Proof.
  split; [done|]. split; [|apply Push_batch_loop_Done].
  unfold Push_batch, Size. simpl.
  rewrite pop_front_push_back. unfold push_back.
  rewrite size_app. change (size [t]) with 1.
  destruct (N.leb_spec (max_count_ s) (size (queue_ s) + 1));
    destruct (decide _); try (exfalso; lia); done.
Qed.
End batch_push.

(** ** Removal *)

Section removal.
Context {T : Type}.
Variable T_default : T.
Variable T_eq : T → T → bool.
Implicit Types (s : CrossThreadQueue T) (q ts : list T) (t : T).

(** The loop of the bulk Pop, started at index [i] with [sz - i] items
    still to move: it fills [ts] from [i] on with the front of [q]. *)
Lemma Pop_n_loop_Done fuel i sz ts q :
  (sz - i < fuel)%nat → (i ≤ sz)%nat → length ts = sz →
  (sz - i ≤ length q)%nat →
  Pop_n_loop fuel i sz ts q =
    Done (take i ts ++ take (sz - i) q, drop (sz - i) q).
Proof.
  revert i ts q.
  induction fuel as [|fuel IH]; intros i ts q Hfuel Hi Hts Hq; [lia|].
  simpl. destruct (decide (i < sz)%nat) as [Hlt|Hge].
  - destruct q as [|x q]; [simpl in Hq; lia|]. simpl.
    unfold vec_set. destruct (decide (i < length ts)%nat); [|lia]. simpl.
    rewrite IH; [|lia|lia|by rewrite length_insert|simpl in Hq; lia].
    rewrite (take_S_r _ _ x) by (by apply list_lookup_insert_eq).
    rewrite take_insert_ge by lia.
    replace (sz - i)%nat with (S (sz - S i)) by lia. simpl.
    by rewrite <- app_assoc.
  - replace (sz - i)%nat with 0%nat by lia.
    rewrite take_0, drop_0, app_nil_r.
    by rewrite take_ge by lia.
Qed.

Lemma Pop_n_Done num s :
  let n := N.to_nat (N.min num (Size s)) in
  Pop_n T_default num s =
    Done (take n (queue_ s), with_queue s (drop n (queue_ s))).
Proof.
  intros n. unfold Pop_n. fold (Size s). fold n.
  rewrite Pop_n_loop_Done.
  - simpl. by rewrite Nat.sub_0_r.
  - lia.
  - lia.
  - apply length_replicate.
  - unfold n, Size, size. lia.
Qed.

(** C7: Pop(n) always returns; it returns the first min(n, Size())
    items, oldest first, leaves the rest in place, and the size has
    gone down by the number of items returned. *)
Theorem Pop_n_returns_front_items num s :
  ∃ ts s', Pop_n T_default num s = Done (ts, s') ∧
    size ts = N.min num (Size s) ∧
    queue_ s = ts ++ queue_ s' ∧
    Size s' + size ts = Size s ∧
    max_count_ s' = max_count_ s.
Proof.
  rewrite Pop_n_Done. eexists _, _. split; [done|]. simpl.
  assert (N.to_nat (N.min num (Size s)) ≤ length (queue_ s))%nat as Hn
    by (unfold Size, size; lia).
  unfold Size, size in *. simpl.
  rewrite length_take, length_drop, take_drop.
  repeat split; lia.
Qed.
End removal.

Section erase.
Context {T : Type}.
Variable T_eq : T → T → bool.
Implicit Types (s : CrossThreadQueue T) (q : list T) (t : T).

(** What the scan started at index [k] comes to: either nothing from
    [k] on compares equal to [t] and the deque is as it was, or the
    first item from [k] on that does has been taken out. *)
Lemma Erase_loop_Done fuel t k q :
  (length q - k < fuel)%nat →
  (Erase_loop T_eq fuel t k q = Done (false, q) ∧ no_match T_eq t (drop k q)) ∨
  (∃ mid x post,
     drop k q = mid ++ x :: post ∧ no_match T_eq t mid ∧ T_eq t x = true ∧
     Erase_loop T_eq fuel t k q = Done (true, take k q ++ mid ++ post)).
Proof.
  revert k. induction fuel as [|fuel IH]; intros k Hfuel; [lia|].
  simpl. destruct (decide (k < length q)%nat) as [Hlt|Hge].
  - destruct (lookup_lt_is_Some_2 q k Hlt) as [x Hx].
    unfold at_. rewrite Hx. simpl.
    destruct (T_eq t x) eqn:Heq.
    + right. exists [], x, (drop (S k) q).
      split; [by rewrite (drop_S _ x)|]. split; [by apply Forall_nil|].
      split; [done|].
      unfold erase. destruct (decide _); [|lia]. simpl.
      by rewrite delete_take_drop.
    + destruct (IH (S k)) as [[Hrun Hno]|(mid & y & post & Hq & Hno & Hy & Hrun)];
        [lia| |].
      * left. split; [done|]. rewrite (drop_S _ x) by done.
        by apply Forall_cons.
      * right. exists (x :: mid), y, post.
        split; [by rewrite (drop_S _ x), Hq|].
        split; [by apply Forall_cons|]. split; [done|].
        rewrite Hrun, (take_S_r _ _ x) by done.
        by rewrite <- app_assoc.
  - left. split; [done|]. rewrite drop_ge by lia. by apply Forall_nil.
Qed.

(** C9: Erase(v) always returns.  It returns true when some item
    compares equal to v, and then exactly the first such item is gone
    and the size is one less; it returns false when no item compares
    equal to v, and then the queue is as it was. *)
Theorem Erase_removes_first_match t s :
  (Erase T_eq t s = Done (false, s) ∧ no_match T_eq t (queue_ s)) ∨
  (∃ pre x post s',
     Erase T_eq t s = Done (true, s') ∧
     queue_ s = pre ++ x :: post ∧ no_match T_eq t pre ∧ T_eq t x = true ∧
     queue_ s' = pre ++ post ∧
     max_count_ s' = max_count_ s ∧
     Size s' + 1 = Size s).
Proof.
  unfold Erase.
  destruct (Erase_loop_Done (S (length (queue_ s))) t 0 (queue_ s))
    as [[Hrun Hno]|(mid & x & post & Hq & Hno & Hx & Hrun)]; [lia| |].
  - left. rewrite Hrun. simpl. split; [by destruct s|].
    by rewrite drop_0 in Hno.
  - right. exists mid, x, post. eexists. rewrite Hrun. simpl.
    split; [done|]. rewrite drop_0 in Hq. simpl.
    split; [done|]. split; [done|]. split; [done|]. split; [done|].
    unfold Size, size. simpl. rewrite Hq, !length_app. simpl. lia.
Qed.
End erase.

(** ** Sequences of calls *)

Section calls.
Context {T : Type}.
Variable T_default : T.
Variable T_eq : T → T → bool.
Implicit Types (s : CrossThreadQueue T) (q ts : list T) (t : T).
Implicit Types (c : call T) (r : reply T).

Lemma sublist_tail q : tail q `sublist_of` q.
Proof. destruct q; [done|]. by apply sublist_cons. Qed.

Lemma size_tail_push_back t q : size (tail (q ++ [t])) = size q.
Proof.
  destruct q; unfold size; simpl; [done|]. rewrite length_app. simpl. lia.
Qed.

Lemma size_sublist q1 q2 : q1 `sublist_of` q2 → size q1 ≤ size q2.
Proof. intros H%sublist_length. unfold size. lia. Qed.

Lemma Try_Push_batch_cases ts s :
  Try_Push_batch ts s = (false, s) ∨
  Try_Push_batch ts s = (false, with_queue s (queue_ s ++ ts)).
Proof.
  unfold Try_Push_batch. rewrite push_back_all_app.
  destruct (_ <? _); auto.
Qed.

Lemma Push_batch_spec_sublist max ts q :
  Push_batch_spec max ts q `sublist_of` q ++ ts.
Proof.
  revert q. induction ts as [|t ts IH]; intros q; simpl.
  - by rewrite app_nil_r.
  - etrans; [apply IH|].
    replace (q ++ t :: ts) with ((q ++ [t]) ++ ts) by (by rewrite <- app_assoc).
    apply sublist_app; [|done].
    destruct (decide _); [apply sublist_tail | done].
Qed.

Lemma Push_batch_spec_bound max ts q :
  size q ≤ max → size (Push_batch_spec max ts q) ≤ max.
Proof.
  revert q. induction ts as [|t ts IH]; intros q Hq; simpl; [done|].
  apply IH. destruct (decide _) as [Hge|Hlt].
  - by rewrite size_tail_push_back.
  - lia.
Qed.

Lemma Pop_Done has_t s :
  Pop has_t s =
    Done (match queue_ s with
          | [] => (false, None, s)
          | x :: q => (true, if has_t then Some x else None, with_queue s q)
          end).
Proof. unfold Pop. by destruct (queue_ s). Qed.

Lemma Pop_Must_wait_empty fuel s :
  queue_ s = [] → Pop_Must_wait fuel s = Fail OutOfFuel.
Proof. intros Hq. induction fuel as [|fuel IH]; simpl; [done|]. by rewrite Hq. Qed.

(** On an empty queue the deprecated blocking Pop waits for ever. *)
Lemma Pop_Must_empty fuel s :
  queue_ s = [] → Pop_Must fuel s = Fail OutOfFuel.
Proof. intros Hq. unfold Pop_Must. by rewrite Pop_Must_wait_empty. Qed.

Lemma Pop_Must_nonempty fuel s x q :
  queue_ s = x :: q → Pop_Must (S fuel) s = Done (true, x, with_queue s q).
Proof. intros Hq. unfold Pop_Must. simpl. by rewrite Hq. Qed.

Lemma Pop_Must_Done_inv fuel s res :
  Pop_Must fuel s = Done res →
  ∃ x q, queue_ s = x :: q ∧ res = (true, x, with_queue s q).
Proof.
  destruct (queue_ s) as [|x q] eqn:Hq.
  - by rewrite Pop_Must_empty.
  - destruct fuel as [|fuel]; [done|].
    rewrite (Pop_Must_nonempty _ _ x q) by done. intros [= <-]. eauto.
Qed.

Lemma Erase_shape t s :
  ∃ b q, Erase T_eq t s = Done (b, with_queue s q) ∧ q `sublist_of` queue_ s.
Proof.
  unfold Erase.
  destruct (Erase_loop_Done T_eq (S (length (queue_ s))) t 0 (queue_ s))
    as [[Hrun _]|(mid & x & post & Hq & _ & _ & Hrun)]; [lia| |];
    rewrite Hrun; simpl; eexists _, _; (split; [done|]); [done|].
  rewrite drop_0 in Hq. rewrite Hq.
  apply sublist_app; [done|]. by apply sublist_cons.
Qed.

(** C10: a call of any member function other than SetMaxCount that
    returns leaves the capacity bound as it was: GetMaxCount() gives the
    same value before and after. *)
Theorem only_SetMaxCount_changes_bound fuel c s r s' :
  is_SetMaxCount c = false →
  exec T_default T_eq fuel c s = Done (r, s') →
  GetMaxCount s' = GetMaxCount s.
Proof.
  unfold GetMaxCount.
  intros Hc. destruct c; simpl in *; try discriminate.
  - by intros [= _ <-].
  - by intros [= _ <-].
  - by intros [= _ <-].
  - by intros [= _ <-].
  - intros [= _ <-]. unfold Try_Push. by destruct (_ <? _).
  - intros [= _ <-]. by destruct (Try_Push_batch_cases ts s) as [-> | ->].
  - rewrite Push_Done. by intros [= _ <-].
  - unfold Push_batch. rewrite Push_batch_loop_Done. by intros [= _ <-].
  - rewrite Pop_Done. simpl. intros [= _ <-]. by destruct (queue_ s).
  - rewrite Pop_n_Done. by intros [= _ <-].
  - destruct (Pop_Must fuel s) as [res|] eqn:Hrun; [|done].
    apply Pop_Must_Done_inv in Hrun as (x & q & _ & ->).
    by intros [= _ <-].
  - by intros [= _ <-].
  - destruct (Erase_shape t s) as (b & q & -> & _). by intros [= _ <-].
Qed.

(** One returned call keeps the size within the bound. *)
Lemma exec_within_bound fuel c s r s' :
  Size s ≤ GetMaxCount s → coexist c s →
  exec T_default T_eq fuel c s = Done (r, s') →
  Size s' ≤ GetMaxCount s'.
Proof.
  unfold GetMaxCount, Size. intros Hinv Hmem.
  destruct c; simpl in *.
  - destruct (SetMaxCount fuel ic s) as [s1|] eqn:Hrun; [|done].
    apply SetMaxCount_Done_inv in Hrun as (_ & Hmax & Hsz & _).
    intros [= _ <-]. lia.
  - by intros [= _ <-].
  - by intros [= _ <-].
  - by intros [= _ <-].
  - by intros [= _ <-].
  - intros [= _ <-]. unfold Try_Push.
    destruct (N.ltb_spec (size (queue_ s)) (max_count_ s)); simpl; [|done].
    unfold push_back. rewrite size_app. change (size [t]) with 1. lia.
  - intros [= _ <-].
    destruct (decide (size (queue_ s) + size ts ≤ max_count_ s)).
    + rewrite Try_Push_batch_accept by done. simpl. by rewrite size_app.
    + rewrite Try_Push_batch_reject by (done || lia). done.
  - rewrite Push_Done. intros [= _ <-]. simpl.
    destruct (decide _).
    + by rewrite size_tail_push_back.
    + rewrite size_app. change (size [t]) with 1. lia.
  - unfold Push_batch. rewrite Push_batch_loop_Done. intros [= _ <-].
    simpl. by apply Push_batch_spec_bound.
  - rewrite Pop_Done. simpl. intros [= _ <-].
    destruct (queue_ s) as [|x q] eqn:Hq; simpl; [by rewrite Hq|].
    rewrite size_cons in Hinv. lia.
  - rewrite Pop_n_Done. intros [= _ <-]. simpl.
    etrans; [apply size_sublist, sublist_drop | done].
  - destruct (Pop_Must fuel s) as [res|] eqn:Hrun; [|done].
    apply Pop_Must_Done_inv in Hrun as (x & q & Hq & ->).
    intros [= _ <-]. simpl. rewrite Hq, size_cons in Hinv. lia.
  - intros [= _ <-]. simpl. change (size (@nil T)) with 0. lia.
  - destruct (Erase_shape t s) as (b & q & -> & Hsub). intros [= _ <-].
    simpl. etrans; [by apply size_sublist | done].
Qed.

(** Every call returns once it has fuel for one more test of a loop
    condition than there are items queued, but for the two that are stuck:
    [SetMaxCount(0)], and [Pop_Must] on an empty queue. *)
Lemma exec_returns fuel c s :
  c ≠ CSetMaxCount 0 → (c = CPop_Must → queue_ s ≠ []) →
  ∃ r s', exec T_default T_eq (S (length (queue_ s)) + fuel) c s = Done (r, s').
Proof.
  intros Hset Hmust. destruct c; unfold exec.
  - rewrite SetMaxCount_positive by (destruct ic; [done | lia]).
    simpl. eauto.
  - eauto.
  - eauto.
  - eauto.
  - eauto.
  - eauto.
  - eauto.
  - rewrite Push_Done. simpl. eauto.
  - unfold Push_batch. rewrite Push_batch_loop_Done. simpl. eauto.
  - rewrite Pop_Done. simpl. eauto.
  - rewrite Pop_n_Done. simpl. eauto.
  - destruct (queue_ s) as [|x q] eqn:Hq; [by destruct Hmust|].
    change (S (length (x :: q)) + fuel)%nat with (S (length (x :: q) + fuel)).
    rewrite (Pop_Must_nonempty _ _ x q) by done. simpl. eauto.
  - eauto.
  - destruct (Erase_shape t s) as (b & q & -> & _). simpl. eauto.
Qed.

(** C4: in every state a sequence of calls can lead to, that is after
    each call that has returned, Size() <= GetMaxCount(). *)
Theorem size_within_bound s :
  reachable T_default T_eq s → Size s ≤ GetMaxCount s.
Proof.
  induction 1 as [|fuel c s r s' _ IH Hmem Hrun].
  - unfold Size, GetMaxCount, SIZE_MAX. simpl.
    change (size (@nil T)) with 0. lia.
  - by eapply exec_within_bound.
Qed.

(** One returned call: what it hands back, followed by what it leaves
    in the queue, is what was in the queue followed by what it was
    handed, with some items possibly missing and none out of place. *)
Lemma exec_keeps_order fuel c s r s' :
  exec T_default T_eq fuel c s = Done (r, s') →
  delivered r ++ queue_ s' `sublist_of` queue_ s ++ offered c.
Proof.
  destruct c; simpl.
  - destruct (SetMaxCount fuel ic s) as [s1|] eqn:Hrun; [|done].
    apply SetMaxCount_Done_inv in Hrun as (_ & _ & _ & n & Hq).
    intros [= <- <-]. simpl. rewrite app_nil_r, Hq. apply sublist_drop.
  - intros [= <- <-]. simpl. by rewrite app_nil_r.
  - intros [= <- <-]. simpl. by rewrite app_nil_r.
  - intros [= <- <-]. simpl. by rewrite app_nil_r.
  - intros [= <- <-]. simpl. by rewrite app_nil_r.
  - intros [= <- <-]. unfold Try_Push, push_back.
    destruct (_ <? _); simpl; [done|]. by apply sublist_inserts_r.
  - intros [= <- <-].
    destruct (Try_Push_batch_cases ts s) as [-> | ->]; simpl; [|done].
    by apply sublist_inserts_r.
  - rewrite Push_Done. intros [= <- <-]. simpl.
    destruct (decide _); [apply sublist_tail | done].
  - unfold Push_batch. rewrite Push_batch_loop_Done. intros [= <- <-].
    simpl. apply Push_batch_spec_sublist.
  - rewrite Pop_Done. simpl. intros [= <- <-]. rewrite app_nil_r.
    destruct (queue_ s) as [|x q] eqn:Hq; simpl; [by rewrite Hq|].
    destruct has_t; simpl; [done|]. by apply sublist_cons.
  - rewrite Pop_n_Done. intros [= <- <-]. simpl.
    by rewrite take_drop, app_nil_r.
  - destruct (Pop_Must fuel s) as [res|] eqn:Hrun; [|done].
    apply Pop_Must_Done_inv in Hrun as (x & q & Hq & ->).
    intros [= <- <-]. simpl. by rewrite Hq, app_nil_r.
  - intros [= <- <-]. simpl. apply sublist_nil_l.
  - destruct (Erase_shape t s) as (b & q & -> & Hsub). intros [= <- <-].
    simpl. by rewrite app_nil_r.
Qed.

(** C5: over any sequence of calls that return, the items handed back
    by the Pop functions, in the order they were handed back and
    followed by the items still queued, appear in the same relative
    order among the items initially queued followed by the items
    pushed, in the order they were pushed. *)
Theorem pops_follow_push_order fuel cs s rs s' :
  run T_default T_eq fuel cs s = Done (rs, s') →
  concat (delivered <$> rs) ++ queue_ s'
    `sublist_of` queue_ s ++ concat (offered <$> cs).
Proof.
  revert s rs s'. induction cs as [|c cs IH]; intros s rs s'; simpl.
  - intros [= <- <-]. simpl. by rewrite app_nil_r.
  - destruct (exec T_default T_eq fuel c s) as [[r s1]|] eqn:Hc; [|done].
    simpl.
    destruct (run T_default T_eq fuel cs s1) as [[rs1 s2]|] eqn:Hcs; [|done].
    simpl. intros [= <- <-]. simpl.
    apply exec_keeps_order in Hc. apply IH in Hcs.
    rewrite <- (assoc_L (++)). etrans.
    { apply sublist_app; [done | apply Hcs]. }
    rewrite !(assoc_L (++)). by apply sublist_app.
Qed.
End calls.

(** * The scenarios of the specification, run on the model *)

Section scenarios.
(** Capacity 3; push 1, 2, 3, 4 in order: the contents are [2; 3; 4]. *)
Example scenario_push_four :
  run 0%nat Nat.eqb 1 [CPush 1; CPush 2; CPush 3; CPush 4]%nat (mkQueue [] 3) =
    Done ([RVoid; RVoid; RVoid; RVoid], mkQueue [2; 3; 4]%nat 3).
Proof. reflexivity. Qed.

(** From there Try_Push(5) returns false and changes nothing. *)
Example scenario_try_push_full :
  Try_Push 5%nat (mkQueue [2; 3; 4]%nat 3) = (false, mkQueue [2; 3; 4]%nat 3).
Proof. reflexivity. Qed.

(** Pop(2) returns [2; 3] and leaves [4]. *)
Example scenario_pop_two :
  Pop_n 0%nat 2 (mkQueue [2; 3; 4]%nat 3) =
    Done ([2; 3]%nat, mkQueue [4]%nat 3).
Proof. reflexivity. Qed.

(** Erase(4) returns true and the queue is empty. *)
Example scenario_erase_last :
  Erase Nat.eqb 4%nat (mkQueue [4]%nat 3) = Done (true, mkQueue [] 3).
Proof. reflexivity. Qed.

(** The batch Push evicts one step earlier than the single one: through
    it the same four items leave only the newest two behind. *)
Example scenario_push_batch_four :
  Push_batch [1; 2; 3; 4]%nat (mkQueue [] 3) = Done (mkQueue [3; 4]%nat 3).
Proof. reflexivity. Qed.

(** A batch that fits is appended, and the call returns false. *)
Example Try_Push_batch_fresh :
  Try_Push_batch [1; 2]%nat construct = (false, mkQueue [1; 2]%nat SIZE_MAX).
Proof. reflexivity. Qed.

(** A queue holding one item loses it when its bound is set to 1. *)
Example SetMaxCount_one_on_singleton :
  SetMaxCount 2 1 (mkQueue [7]%nat SIZE_MAX) = Done (mkQueue [] 1).
Proof. reflexivity. Qed.

(** SetMaxCount(0) on a fresh queue pops from the empty deque. *)
Example SetMaxCount_zero_on_fresh :
  SetMaxCount 5 0 (@construct nat) = Fail UndefinedBehaviour.
Proof. reflexivity. Qed.
End scenarios.

(** * The conditional theorems at concrete inputs *)

(** A queue of bound 3 holding one item takes a batch of two, and the
    call returns false. *)
Lemma Try_Push_batch_accepted_returns_false_witness :
  Try_Push_batch [2; 3]%nat (mkQueue [1]%nat 3) =
    (false, mkQueue [1; 2; 3]%nat 3).
Proof.
  apply (Try_Push_batch_accepted_returns_false [2; 3]%nat (mkQueue [1]%nat 3)).
  - vm_compute. discriminate.
  - vm_compute. discriminate.
Defined.

(** A full queue of bound 3: the oldest item goes, the new one is last. *)
Lemma Push_inserts_and_evicts_oldest_witness :
  ∃ s', Push 4%nat (mkQueue [1; 2; 3]%nat 3) = Done s' ∧
    queue_ s' = [2; 3; 4]%nat ∧ Size s' = 3.
Proof.
  destruct (Push_inserts_and_evicts_oldest 4%nat (mkQueue [1; 2; 3]%nat 3))
    as (s' & Hrun & Hmax & _ & _ & Hfull).
  exists s'. split; [exact Hrun|].
  destruct (Hfull eq_refl) as (_ & Hq & Hsz).
  split; [exact (Hq 1%nat [2; 3]%nat eq_refl)|].
  rewrite Hsz. exact Hmax.
Defined.

(** The state after [SetMaxCount(3)] and four calls of [Push]. *)
Lemma reachable_after_four_pushes :
  reachable 0%nat Nat.eqb (mkQueue [2; 3; 4]%nat 3).
Proof.
  eapply (reachable_call _ _ 1 (CPush 4%nat) (mkQueue [1; 2; 3]%nat 3));
    [|exact I|reflexivity].
  eapply (reachable_call _ _ 1 (CPush 3%nat) (mkQueue [1; 2]%nat 3));
    [|exact I|reflexivity].
  eapply (reachable_call _ _ 1 (CPush 2%nat) (mkQueue [1]%nat 3));
    [|exact I|reflexivity].
  eapply (reachable_call _ _ 1 (CPush 1%nat) (mkQueue [] 3));
    [|exact I|reflexivity].
  eapply (reachable_call _ _ 1 (CSetMaxCount 3) construct);
    [|exact I|reflexivity].
  apply reachable_construct.
Defined.

Lemma size_within_bound_witness :
  Size (mkQueue [2; 3; 4]%nat 3) ≤ GetMaxCount (mkQueue [2; 3; 4]%nat 3).
Proof.
  apply (size_within_bound 0%nat Nat.eqb (mkQueue [2; 3; 4]%nat 3)).
  exact reachable_after_four_pushes.
Defined.

(** Bound 3; push 1 to 4, offer 5, pop two, erase 4, push 6 and 7, pop
    without and with a place for the item: 2, 3 and 6 come out in the
    order they went in. *)
Lemma pops_follow_push_order_witness :
  [2; 3; 6]%nat ++ [7]%nat
    `sublist_of` [] ++ [1; 2; 3; 4; 5; 6; 7]%nat.
Proof.
  apply (pops_follow_push_order 0%nat Nat.eqb 1
           [CSetMaxCount 3; CPush 1; CPush 2; CPush 3; CPush 4; CTry_Push 5;
            CPop_n 2; CErase 4; CPush 6; CPush 7; CPop true]%nat
           construct
           [RVoid; RVoid; RVoid; RVoid; RVoid; RBool false;
            RItems [2; 3]; RBool true; RVoid; RVoid; RItem true (Some 6)]%nat
           (mkQueue [7]%nat 3)).
  reflexivity.
Defined.

(** [Push] on a full queue of bound 3 leaves the bound at 3. *)
Lemma only_SetMaxCount_changes_bound_witness :
  GetMaxCount (mkQueue [2; 3; 4]%nat 3) = GetMaxCount (mkQueue [1; 2; 3]%nat 3).
Proof.
  apply (only_SetMaxCount_changes_bound 0%nat Nat.eqb 1 (CPush 4%nat)
           (mkQueue [1; 2; 3]%nat 3) RVoid (mkQueue [2; 3; 4]%nat 3)).
  - reflexivity.
  - reflexivity.
Defined.

(** * Further properties of the member functions *)

Section single_item.
Context {T : Type}.
Variable T_default : T.
Variable T_eq : T → T → bool.
Implicit Types (s : CrossThreadQueue T) (q ts : list T) (t : T).

Lemma with_queue_same s : with_queue s (queue_ s) = s.
Proof. by destruct s. Qed.

Lemma empty_true q : empty q = true ↔ q = [].
Proof. by destruct q. Qed.

Lemma empty_false q : empty q = false ↔ ∃ x q', q = x :: q'.
Proof.
  destruct q as [|x q]; split; try done.
  - by intros (? & ? & ?).
  - eauto.
Qed.

(** While the size is within the bound, the single Try_Push fails on a
    full queue and on no other: it returns the negation of Full(), and
    appends the item exactly when it returns true. *)
Theorem Try_Push_succeeds_unless_Full t s :
  Size s ≤ GetMaxCount s →
  (Try_Push t s).1 = negb (Full s) ∧
  (Try_Push t s).2 = if Full s then s else with_queue s (queue_ s ++ [t]).
Proof.
  unfold Size, GetMaxCount, Full, Try_Push, push_back. intros Hinv.
  destruct (N.ltb_spec (size (queue_ s)) (max_count_ s));
    destruct (N.eqb_spec (size (queue_ s)) (max_count_ s));
    simpl; try done; exfalso; lia.
Qed.

(** On an empty queue every way of taking items out reports that there
    was nothing and changes nothing: Pop returns false and stores no
    item, the bulk Pop returns an empty vector, Erase returns false. *)
Theorem removal_on_empty has_t num t s :
  Empty s = true →
  Pop has_t s = Done (false, None, s) ∧
  Pop_n T_default num s = Done ([], s) ∧
  Erase T_eq t s = Done (false, s).
Proof.
  unfold Empty. rewrite empty_true. intros Hq.
  split; [by rewrite Pop_Done, Hq|].
  split.
  - rewrite Pop_n_Done. unfold Size. rewrite Hq.
    change (size (@nil T)) with 0. rewrite N.min_0_r. simpl.
    by rewrite <- Hq, with_queue_same.
  - unfold Erase. rewrite Hq. simpl. by rewrite <- Hq, with_queue_same.
Qed.

(** On a non-empty queue the four ways of taking one item out agree:
    Pop with and without a place for the item, Pop(1) and Pop_Must all
    remove the front item and leave the same queue, and those that hand
    an item back hand back that one. *)
Theorem removal_of_one_agrees fuel s :
  Empty s = false →
  ∃ x s',
    queue_ s = x :: queue_ s' ∧ max_count_ s' = max_count_ s ∧
    Pop true s = Done (true, Some x, s') ∧
    Pop false s = Done (true, None, s') ∧
    Pop_n T_default 1 s = Done ([x], s') ∧
    Pop_Must (S fuel) s = Done (true, x, s').
Proof.
  unfold Empty. rewrite empty_false. intros (x & q & Hq).
  exists x, (with_queue s q). simpl.
  split; [done|]. split; [done|].
  split; [by rewrite Pop_Done, Hq|].
  split; [by rewrite Pop_Done, Hq|].
  split; [|by apply Pop_Must_nonempty].
  rewrite Pop_n_Done. unfold Size. rewrite Hq, size_cons.
  replace (N.to_nat (N.min 1 (size q + 1))) with 1%nat by lia.
  simpl. by rewrite take_0, drop_0.
Qed.

(** Pop_Must on an empty queue never returns: it waits with the mutex
    held, so the queue stays empty however long it waits. *)
Theorem Pop_Must_on_empty_never_returns fuel s :
  Empty s = true → Pop_Must fuel s = Fail OutOfFuel.
Proof.
  unfold Empty. rewrite empty_true. intros Hq. unfold Pop_Must.
  assert (Pop_Must_wait fuel s = Fail OutOfFuel) as ->; [|done].
  induction fuel as [|fuel IH]; simpl; [done|]. by rewrite Hq.
Qed.
End single_item.

Section bulk.
Context {T : Type}.
Variable T_default : T.
Variable T_eq : T → T → bool.
Implicit Types (s : CrossThreadQueue T) (q ts : list T) (t : T).

(** Asking the bulk Pop for at least as many items as are queued hands
    back the whole contents in order and leaves what Clear() leaves. *)
Theorem Pop_n_drains num s :
  Size s ≤ num → Pop_n T_default num s = Done (queue_ s, Clear s).
Proof.
  intros Hnum. rewrite Pop_n_Done. unfold Clear.
  replace (N.to_nat (N.min num (Size s))) with (length (queue_ s))
    by (unfold Size, size in *; lia).
  by rewrite firstn_all, drop_all.
Qed.


Lemma tail_push_back_app t q ts :
  tail (q ++ [t]) ++ ts = drop 1 (q ++ t :: ts).
Proof.
  destruct q as [|x q]; simpl; [by rewrite drop_0|].
  by rewrite drop_0, <- app_assoc.
Qed.

(** The two Push overloads part ways at one size only: a batch of one
    item is handled like the single item unless the queue is one short
    of its bound, where the batch Push evicts the oldest item and the
    single Push does not. *)
Theorem Push_batch_of_one_differs_one_below_bound t s :
  (Size s + 1 ≠ max_count_ s → Push_batch [t] s = Push t s) ∧
  (Size s + 1 = max_count_ s →
     Push t s = Done (with_queue s (queue_ s ++ [t])) ∧
     Push_batch [t] s = Done (with_queue s (tail (queue_ s ++ [t])))).
Proof.
  unfold Push_batch. rewrite Push_batch_loop_Done, Push_Done. simpl.
  unfold Size. rewrite size_app. change (size [t]) with 1.
  split; intros Hsz; repeat destruct (decide _); try done; exfalso; lia.
Qed.

(** A queue below its bound stays below it through the batch Push: what
    is left are the newest max_count_ - 1 of the old items followed by
    the new ones, so the batch Push never fills a queue. *)
Theorem Push_batch_keeps_newest_below_bound ts s :
  Size s < max_count_ s →
  ∃ s', Push_batch ts s = Done s' ∧
    queue_ s' =
      drop (length (queue_ s ++ ts) - (N.to_nat (max_count_ s) - 1))
        (queue_ s ++ ts) ∧
    max_count_ s' = max_count_ s ∧
    Size s' < max_count_ s'.
Proof.
  unfold Push_batch. rewrite Push_batch_loop_Done.
  intros Hlt. eexists. split; [done|]. simpl.
  cut (Push_batch_spec (max_count_ s) ts (queue_ s) =
         drop (length (queue_ s ++ ts) - (N.to_nat (max_count_ s) - 1))
           (queue_ s ++ ts)).
  { intros ->. split; [done|]. split; [done|].
    unfold Size, size in *. simpl. rewrite length_drop. lia. }
  unfold Size in Hlt. revert Hlt.
  generalize (queue_ s) as q. generalize (max_count_ s) as m. clear s.
  intros m q. revert q. induction ts as [|t ts IH]; intros q Hlt; simpl.
  - rewrite app_nil_r. unfold size in Hlt.
    replace (length q - (N.to_nat m - 1))%nat with 0%nat by lia.
    by rewrite drop_0.
  - rewrite size_app. change (size [t]) with 1.
    destruct (decide _) as [Hge|Hlt'].
    + rewrite IH by (rewrite size_tail_push_back; done).
      rewrite tail_push_back_app, drop_drop. f_equal.
      unfold size in *. rewrite length_drop, !length_app. simpl. lia.
    + rewrite IH by (rewrite size_app; change (size [t]) with 1; lia).
      by rewrite <- app_assoc.
Qed.

(** On a full queue the batch Push slides the window: as many of the
    oldest items go as new ones come, and the queue stays full. *)
Theorem Push_batch_on_full_slides ts s :
  Full s = true →
  ∃ s', Push_batch ts s = Done s' ∧
    queue_ s' = drop (length ts) (queue_ s ++ ts) ∧
    max_count_ s' = max_count_ s ∧
    Full s' = true.
Proof.
  unfold Push_batch. rewrite Push_batch_loop_Done.
  unfold Full. intros Hfull%N.eqb_eq.
  eexists. split; [done|]. simpl.
  cut (Push_batch_spec (max_count_ s) ts (queue_ s) =
         drop (length ts) (queue_ s ++ ts)).
  { intros ->. split; [done|]. split; [done|]. apply N.eqb_eq.
    unfold size in *. rewrite length_drop, length_app. lia. }
  revert Hfull.
  generalize (queue_ s) as q. generalize (max_count_ s) as m. clear s.
  intros m q. revert q. induction ts as [|t ts IH]; intros q Hfull; simpl.
  - by rewrite drop_0, app_nil_r.
  - rewrite size_app. change (size [t]) with 1.
    destruct (decide _) as [Hge|Hlt]; [|exfalso; lia].
    rewrite IH by (rewrite size_tail_push_back; done).
    rewrite tail_push_back_app, drop_drop. done.
Qed.

(** A queue within its bound that takes a sequence of single Push calls
    holds, in order, the newest max_count_ of its old items followed by
    the pushed ones: each call past the bound costs the oldest item. *)
Theorem Push_sequence_keeps_newest fuel ts s :
  Size s ≤ max_count_ s →
  run T_default T_eq fuel (CPush <$> ts) s =
    Done ((λ _, RVoid) <$> ts,
          with_queue s
            (drop (length (queue_ s ++ ts) - N.to_nat (max_count_ s))
               (queue_ s ++ ts))).
Proof.
  revert s. induction ts as [|t ts IH]; intros s Hle; simpl.
  - rewrite app_nil_r. unfold Size, size in Hle.
    replace (length (queue_ s) - N.to_nat (max_count_ s))%nat with 0%nat by lia.
    by rewrite drop_0, with_queue_same.
  - rewrite Push_Done. simpl.
    unfold Size in Hle. destruct (decide _) as [Hgt|Hngt].
    + rewrite IH by (unfold Size; simpl; rewrite size_tail_push_back; done).
      simpl. unfold with_queue. simpl. do 3 f_equal.
      rewrite tail_push_back_app, drop_drop. f_equal.
      unfold size in *. rewrite length_drop, !length_app. simpl. lia.
    + rewrite IH
        by (unfold Size; simpl; rewrite size_app; change (size [t]) with 1; lia).
      simpl. unfold with_queue. simpl. by rewrite <- app_assoc.
Qed.

(** A sequence of single Try_Push calls that fits as a whole succeeds
    item by item and leaves the queue the batch Try_Push leaves. *)
Theorem Try_Push_sequence_is_batch fuel ts s :
  Size s + size ts ≤ GetMaxCount s → GetMaxCount s ≤ SIZE_MAX →
  run T_default T_eq fuel (CTry_Push <$> ts) s =
    Done ((λ _, RBool true) <$> ts, (Try_Push_batch ts s).2).
Proof.
  unfold Size, GetMaxCount. intros Hfit Hmax.
  rewrite Try_Push_batch_accept by lia.
  revert s Hfit Hmax. induction ts as [|t ts IH]; intros s Hfit Hmax; simpl.
  - by rewrite app_nil_r, with_queue_same.
  - rewrite size_cons in Hfit. unfold Try_Push.
    destruct (N.ltb_spec (size (queue_ s)) (max_count_ s)); [|exfalso; lia].
    simpl. rewrite IH; simpl.
    + unfold with_queue, push_back. simpl. by rewrite <- app_assoc.
    + unfold push_back. rewrite size_app. change (size [t]) with 1. lia.
    + done.
Qed.

(** What an accepted batch put in comes out again through the bulk Pop:
    asking for everything returns the old items followed by the batch. *)
Theorem Try_Push_batch_then_Pop_n ts s :
  Size s + size ts ≤ GetMaxCount s → GetMaxCount s ≤ SIZE_MAX →
  Pop_n T_default (Size s + size ts) (Try_Push_batch ts s).2 =
    Done (queue_ s ++ ts, Clear s).
Proof.
  unfold Size, GetMaxCount. intros Hfit Hmax.
  rewrite Try_Push_batch_accept by lia.
  rewrite Pop_n_Done. unfold Size, Clear, with_queue. simpl.
  rewrite size_app, N.min_id. rewrite <- size_app. unfold size.
  by rewrite Nat2N.id, firstn_all, drop_all.
Qed.
End bulk.

Section capacity.
Context {T : Type}.
Variable T_default : T.
Variable T_eq : T → T → bool.
Implicit Types (s : CrossThreadQueue T) (q ts : list T) (t : T).
Implicit Types (c : call T) (r : reply T).

(** For a positive argument SetMaxCount returns once it has fuel for one
    more test than there are items; it has stored the argument as the
    bound and cut the queue at the front down to the newest ic - 1 items
    (to nothing less than it held, if it held fewer). *)
Theorem SetMaxCount_keeps_newest fuel ic s :
  0 < ic →
  ∃ evicted s',
    SetMaxCount (S (length (queue_ s)) + fuel) ic s = Done s' ∧
    queue_ s = evicted ++ queue_ s' ∧
    Size s' = N.min (Size s) (ic - 1) ∧
    GetMaxCount s' = ic.
Proof.
  intros Hic. rewrite SetMaxCount_positive by done.
  set (n := (length (queue_ s) - (N.to_nat ic - 1))%nat).
  exists (take n (queue_ s)). eexists. split; [done|]. simpl.
  split; [by rewrite take_drop|]. split; [|done].
  unfold Size, size. simpl. rewrite length_drop. unfold n. lia.
Qed.

(** Whenever SetMaxCount returns, the queue it leaves is not full and
    the next single Try_Push is accepted. *)
Theorem SetMaxCount_leaves_room fuel ic s s' t :
  SetMaxCount fuel ic s = Done s' →
  Full s' = false ∧ (Try_Push t s').1 = true.
Proof.
  intros (_ & Hmax & Hsz & _)%SetMaxCount_Done_inv.
  unfold Full, Try_Push. rewrite Hmax.
  destruct (N.eqb_spec (size (queue_ s')) ic); [exfalso; lia|].
  destruct (N.ltb_spec (size (queue_ s')) ic); [done | exfalso; lia].
Qed.

Lemma exec_max_count_positive fuel c s r s' :
  0 < max_count_ s →
  exec T_default T_eq fuel c s = Done (r, s') →
  0 < max_count_ s'.
Proof.
  intros Hpos. destruct c; simpl;
    try (intros [= _ <-]; exact Hpos).
  - destruct (SetMaxCount fuel ic s) as [s1|] eqn:Hrun; [|done].
    apply SetMaxCount_Done_inv in Hrun as (Hic & Hmax & _).
    intros [= _ <-]. by rewrite Hmax.
  - intros [= _ <-]. unfold Try_Push. by destruct (_ <? _).
  - intros [= _ <-]. by destruct (Try_Push_batch_cases ts s) as [-> | ->].
  - rewrite Push_Done. by intros [= _ <-].
  - unfold Push_batch. rewrite Push_batch_loop_Done. by intros [= _ <-].
  - rewrite Pop_Done. simpl. intros [= _ <-]. by destruct (queue_ s).
  - rewrite Pop_n_Done. by intros [= _ <-].
  - destruct (Pop_Must fuel s) as [res|] eqn:Hrun; [|done].
    apply Pop_Must_Done_inv in Hrun as (x & q & _ & ->).
    by intros [= _ <-].
  - destruct (Erase_shape T_eq t s) as (b & q & -> & _). by intros [= _ <-].
Qed.

(** No sequence of calls leaves a queue with bound 0: the bound starts at
    SIZE_MAX and the one call that would store 0 does not return. *)
Theorem bound_never_zero s :
  reachable T_default T_eq s → 0 < GetMaxCount s.
Proof.
  induction 1 as [|fuel c s r s' _ IH _ Hrun].
  - by vm_compute.
  - by eapply exec_max_count_positive.
Qed.
End capacity.

Section erase_round_trip.
Context {T : Type}.
Variable T_eq : T → T → bool.
Implicit Types (s : CrossThreadQueue T) (q : list T) (t : T).

(** A list splits in one way only around its first item that compares
    equal to [t]. *)
Lemma first_match_unique t pre1 x1 post1 pre2 x2 post2 :
  pre1 ++ x1 :: post1 = pre2 ++ x2 :: post2 →
  no_match T_eq t pre1 → T_eq t x1 = true →
  no_match T_eq t pre2 → T_eq t x2 = true →
  pre1 = pre2 ∧ x1 = x2 ∧ post1 = post2.
Proof.
  unfold no_match. revert pre2.
  induction pre1 as [|y pre1 IH]; intros [|z pre2]; simpl;
    intros [= Hhd Htl] Hno1 Hx1 Hno2 Hx2.
  - done.
  - subst. apply Forall_cons_1 in Hno2 as [Hz _]. congruence.
  - subst. apply Forall_cons_1 in Hno1 as [Hy _]. congruence.
  - subst. apply Forall_cons_1 in Hno1 as [_ Hno1].
    apply Forall_cons_1 in Hno2 as [_ Hno2].
    destruct (IH _ Htl) as (-> & -> & ->); done.
Qed.

(** An item that compares equal to itself and to nothing queued, once
    accepted by Try_Push, is found by Erase, and erasing it gives back
    the queue as it was before. *)
Theorem Try_Push_then_Erase t s :
  Size s < GetMaxCount s → no_match T_eq t (queue_ s) → T_eq t t = true →
  Erase T_eq t (Try_Push t s).2 = Done (true, s).
Proof.
  unfold Size, GetMaxCount, Try_Push, push_back. intros Hlt Hno Ht.
  destruct (N.ltb_spec (size (queue_ s)) (max_count_ s)); [|exfalso; lia].
  unfold Erase, with_queue. cbn [snd queue_ max_count_].
  destruct (Erase_loop_Done T_eq (S (length (queue_ s ++ [t]))) t 0
              (queue_ s ++ [t]))
    as [[_ Hall]|(mid & x & post & Hq & Hmid & Hx & ->)]; [lia| |].
  - rewrite drop_0 in Hall. apply Forall_app in Hall as [_ Hlast].
    apply Forall_cons_1 in Hlast as [Hlast _]. congruence.
  - rewrite drop_0 in Hq. simpl.
    destruct (first_match_unique t (queue_ s) t [] mid x post)
      as (<- & _ & <-); try done.
    rewrite app_nil_r. by destruct s.
Qed.
End erase_round_trip.

(** * The demonstration program *)

Section example_facts.
Context {float double : Type}.
Variable float_0 : float.
Variable double_0 : double.



End example_facts.

(** * The further conditional theorems at concrete inputs *)

Lemma Try_Push_succeeds_unless_Full_witness :
  (Try_Push 4%nat (mkQueue [2; 3]%nat 3)).1 = negb (Full (mkQueue [2; 3]%nat 3)) ∧
  (Try_Push 4%nat (mkQueue [2; 3]%nat 3)).2 =
    if Full (mkQueue [2; 3]%nat 3) then mkQueue [2; 3]%nat 3
    else with_queue (mkQueue [2; 3]%nat 3) ([2; 3]%nat ++ [4%nat]).
Proof.
  apply (Try_Push_succeeds_unless_Full 4%nat (mkQueue [2; 3]%nat 3)).
  vm_compute. discriminate.
Defined.

Lemma removal_on_empty_witness :
  Pop true (@mkQueue nat [] 3) = Done (false, None, mkQueue [] 3) ∧
  Pop_n 0%nat 2 (@mkQueue nat [] 3) = Done ([], mkQueue [] 3) ∧
  Erase Nat.eqb 4%nat (@mkQueue nat [] 3) = Done (false, mkQueue [] 3).
Proof.
  apply (removal_on_empty 0%nat Nat.eqb true 2 4%nat (@mkQueue nat [] 3)).
  reflexivity.
Defined.

Lemma removal_of_one_agrees_witness :
  ∃ x s',
    [2; 3; 4]%nat = x :: queue_ s' ∧ max_count_ s' = 3 ∧
    Pop true (mkQueue [2; 3; 4]%nat 3) = Done (true, Some x, s') ∧
    Pop false (mkQueue [2; 3; 4]%nat 3) = Done (true, None, s') ∧
    Pop_n 0%nat 1 (mkQueue [2; 3; 4]%nat 3) = Done ([x], s') ∧
    Pop_Must 1 (mkQueue [2; 3; 4]%nat 3) = Done (true, x, s').
Proof.
  apply (removal_of_one_agrees 0%nat 0 (mkQueue [2; 3; 4]%nat 3)).
  reflexivity.
Defined.

Lemma Pop_Must_on_empty_never_returns_witness :
  Pop_Must 1000 (@construct nat) = Fail OutOfFuel.
Proof.
  apply (Pop_Must_on_empty_never_returns 1000 (@construct nat)).
  reflexivity.
Defined.

Lemma Pop_n_drains_witness :
  Pop_n 0%nat 5 (mkQueue [2; 3; 4]%nat 3) =
    Done ([2; 3; 4]%nat, Clear (mkQueue [2; 3; 4]%nat 3)).
Proof.
  apply (Pop_n_drains 0%nat 5 (mkQueue [2; 3; 4]%nat 3)).
  vm_compute. discriminate.
Defined.

(** With bound 3 and two items queued, the single Push keeps all three
    items and the batch Push of the same item keeps two. *)
Lemma Push_batch_of_one_differs_one_below_bound_witness :
  Push 3%nat (mkQueue [1; 2]%nat 3) = Done (mkQueue [1; 2; 3]%nat 3) ∧
  Push_batch [3%nat] (mkQueue [1; 2]%nat 3) = Done (mkQueue [2; 3]%nat 3).
Proof.
  apply (Push_batch_of_one_differs_one_below_bound 3%nat (mkQueue [1; 2]%nat 3)).
  reflexivity.
Defined.

Lemma Push_batch_keeps_newest_below_bound_witness :
  ∃ s', Push_batch [1; 2; 3; 4]%nat (@mkQueue nat [] 3) = Done s' ∧
    queue_ s' = [3; 4]%nat ∧ max_count_ s' = 3 ∧ Size s' < max_count_ s'.
Proof.
  apply (Push_batch_keeps_newest_below_bound [1; 2; 3; 4]%nat (@mkQueue nat [] 3)).
  reflexivity.
Defined.

Lemma Push_batch_on_full_slides_witness :
  ∃ s', Push_batch [5; 6]%nat (mkQueue [2; 3; 4]%nat 3) = Done s' ∧
    queue_ s' = [4; 5; 6]%nat ∧ max_count_ s' = 3 ∧ Full s' = true.
Proof.
  apply (Push_batch_on_full_slides [5; 6]%nat (mkQueue [2; 3; 4]%nat 3)).
  reflexivity.
Defined.

Lemma Push_sequence_keeps_newest_witness :
  run 0%nat Nat.eqb 1 [CPush 1; CPush 2; CPush 3; CPush 4]%nat (@mkQueue nat [] 3) =
    Done ([RVoid; RVoid; RVoid; RVoid], mkQueue [2; 3; 4]%nat 3).
Proof.
  apply (Push_sequence_keeps_newest 0%nat Nat.eqb 1 [1; 2; 3; 4]%nat
           (@mkQueue nat [] 3)).
  vm_compute. discriminate.
Defined.

Lemma Try_Push_sequence_is_batch_witness :
  run 0%nat Nat.eqb 1 [CTry_Push 2; CTry_Push 3]%nat (mkQueue [1]%nat 3) =
    Done ([RBool true; RBool true],
          (Try_Push_batch [2; 3]%nat (mkQueue [1]%nat 3)).2).
Proof.
  apply (Try_Push_sequence_is_batch 0%nat Nat.eqb 1 [2; 3]%nat
           (mkQueue [1]%nat 3)).
  - vm_compute. discriminate.
  - vm_compute. discriminate.
Defined.

Lemma Try_Push_batch_then_Pop_n_witness :
  Pop_n 0%nat 3 (Try_Push_batch [2; 3]%nat (mkQueue [1]%nat 3)).2 =
    Done ([1; 2; 3]%nat, mkQueue [] 3).
Proof.
  apply (Try_Push_batch_then_Pop_n 0%nat [2; 3]%nat (mkQueue [1]%nat 3)).
  - vm_compute. discriminate.
  - vm_compute. discriminate.
Defined.

Lemma SetMaxCount_keeps_newest_witness :
  ∃ evicted s',
    SetMaxCount 5 3 (mkQueue [1; 2; 3; 4]%nat SIZE_MAX) = Done s' ∧
    [1; 2; 3; 4]%nat = evicted ++ queue_ s' ∧
    Size s' = 2 ∧ GetMaxCount s' = 3.
Proof.
  apply (SetMaxCount_keeps_newest 0 3 (mkQueue [1; 2; 3; 4]%nat SIZE_MAX)).
  reflexivity.
Defined.

Lemma SetMaxCount_leaves_room_witness :
  Full (mkQueue [3; 4]%nat 3) = false ∧
  (Try_Push 5%nat (mkQueue [3; 4]%nat 3)).1 = true.
Proof.
  apply (SetMaxCount_leaves_room 5 3 (mkQueue [1; 2; 3; 4]%nat SIZE_MAX)
           (mkQueue [3; 4]%nat 3) 5%nat).
  reflexivity.
Defined.

Lemma bound_never_zero_witness : 0 < GetMaxCount (mkQueue [2; 3; 4]%nat 3).
Proof.
  apply (bound_never_zero 0%nat Nat.eqb (mkQueue [2; 3; 4]%nat 3)).
  exact reachable_after_four_pushes.
Defined.

Lemma Try_Push_then_Erase_witness :
  Erase Nat.eqb 4%nat (Try_Push 4%nat (mkQueue [2; 3]%nat 3)).2 =
    Done (true, mkQueue [2; 3]%nat 3).
Proof.
  apply (Try_Push_then_Erase Nat.eqb 4%nat (mkQueue [2; 3]%nat 3)).
  - reflexivity.
  - repeat constructor.
  - reflexivity.
Defined.

